(** * NZAAT: a shallow embedding of the Go package [nzaat] (nzaat.go)

    The package keeps one [uint32] accumulator ([type digest uint32]) and
    offers the [hash.Hash32] methods on a pointer to it.  Unsigned 32-bit
    values are integers of [Z] with the wrap-around written out; the methods
    run in a state monad over the accumulator, the pointer receiver being the
    threaded state. *)

From Stdlib Require Import ZArith List Lia Bool String.
From Stdlib Require Import Strings.Byte.
From ExtLib Require Import Structures.Monad Structures.MonadState.
From ExtLib Require Import Data.Monads.StateMonad.
Import ListNotations.
Import MonadNotation.
Local Open Scope monad_scope.
Local Open Scope Z_scope.

(** ** Unsigned 32-bit arithmetic, as Go's [uint32] operators compute it *)

Module U32.

Definition modulus : Z := 2 ^ 32.

(** Go truncates the result of [+] and [<<] on [uint32] to 32 bits. *)
Definition wrap (z : Z) : Z := z mod modulus.

Definition add (a b : Z) : Z := wrap (a + b).
Definition shl (a k : Z) : Z := wrap (Z.shiftl a k).
(** [>>] on an unsigned operand is a logical shift; [^] is bitwise. *)
Definition shr (a k : Z) : Z := Z.shiftr a k.
Definition xor (a b : Z) : Z := Z.lxor a b.

Definition in_range (z : Z) : Prop := 0 <= z < modulus.

(** The conversion [digest(x)] of a [byte] to a 32-bit value. *)
Definition of_byte (x : byte) : Z := Z.of_N (Byte.to_N x).

End U32.

(** ** The package *)

(** [type digest uint32] *)
Definition digest : Type := Z.

(** Go's [error] interface value; [nil] is [None]. *)
Definition error : Type := option string.
Definition nil : error := None.

(** A method with receiver [d *digest] is a computation over the pointee. *)
Abbreviation method := (state digest).

(** [for _, x := range p { body }] *)
Fixpoint for_range (p : list byte) (body : byte -> method unit) : method unit :=
  match p with
  | [] => ret tt
  | x :: p' => body x ;; for_range p' body
  end.

(** [func (d *digest) Reset() { *d = 0 }] *)
Definition Reset : method unit := put 0.

(** [new(digest)]: a pointer to a zero-valued digest. *)
Definition new_digest : digest := 0.

(** [func New() hash.Hash32 { d := new(digest); d.Reset(); return d }] *)
Definition New : digest := execState Reset new_digest.

Definition Size : method Z := ret 4.
Definition BlockSize : method Z := ret 1.

(** The body of the loop in [Write]:
    [*d += digest(x) + 1; *d += *d << 10; *d ^= *d >> 6]. *)
Definition Write_body (x : byte) : method unit :=
  d <- get ;; put (U32.add d (U32.add (U32.of_byte x) 1)) ;;
  d <- get ;; put (U32.add d (U32.shl d 10)) ;;
  d <- get ;; put (U32.xor d (U32.shr d 6)).

(** [func (d *digest) Write(p []byte) (nn int, err error)] *)
Definition Write (p : list byte) : method (Z * error) :=
  for_range p Write_body ;;
  ret (Z.of_nat (List.length p), nil).

(** [func (d *digest) Sum32() uint32] *)
Definition Sum32 : method Z :=
  d <- get ;;
  let sum := d in
  let sum := U32.add sum (U32.shl sum 10) in
  let sum := U32.xor sum (U32.shr sum 6) in
  let sum := U32.add sum (U32.shl sum 3) in
  let sum := U32.xor sum (U32.shr sum 11) in
  let sum := U32.add sum (U32.shl sum 15) in
  ret sum.

(** [func Checksum(data []byte) uint32]:
    [h := New(); h.Write(data); return h.Sum32()]. *)
Definition Checksum (data : list byte) : Z :=
  let h := New in
  let h := execState (Write data) h in
  evalState Sum32 h.

(** The ASCII bytes of a string literal, as [[]byte("...")] yields them. *)
Definition bytes_of (s : string) : list byte := list_byte_of_string s.

(** ** The primitives of the file's header comment

    The header of nzaat.go names the building blocks (all modulo 2^32):
    [ADD(x,y) -> { x += y; }], [NAV(s,b) -> { ADD(s,b+c); }] with [c = 1],
    [MIX(s) -> { s += s << 10; s ^= s >> 6; }],
    [NUP(s,b) -> { NAV(s,b); MIX(s); }],
    [FIN(s) -> { s += s << 3; s ^= s >> 11; s += s << 15; result <- s; }],
    and [NAF(s) -> { MIX(s); FIN(s); }], the postprocess function of the
    NZAAT hash. *)

Definition ADD (x y : Z) : Z := U32.add x y.

Definition NAV (s : Z) (b : byte) : Z := ADD s (U32.add (U32.of_byte b) 1).

Definition MIX (s : Z) : Z :=
  let s := U32.add s (U32.shl s 10) in
  U32.xor s (U32.shr s 6).

Definition NUP (s : Z) (b : byte) : Z := MIX (NAV s b).

Definition FIN (s : Z) : Z :=
  let s := U32.add s (U32.shl s 3) in
  let s := U32.xor s (U32.shr s 11) in
  U32.add s (U32.shl s 15).

Definition NAF (s : Z) : Z := FIN (MIX s).

(** The accumulator after the bytes of [p] went through the loop of
    [Write], started from [d]. *)
Definition accumulate (p : list byte) (d : digest) : digest :=
  fold_left NUP p d.

(** ** The two kinds of step, and how each is undone

    Every statement of [Sum32] and of the mixing in [Write] is either
    [s += s << k] or [s ^= s >> k]. *)

Definition mulstep (k s : Z) : Z := U32.add s (U32.shl s k).
Definition xorshift (k s : Z) : Z := U32.xor s (U32.shr s k).

(** [s += s << k] is multiplication by [1 + 2^k]; [unmul ci] multiplies by
    the inverse [ci] of that odd number modulo 2^32. *)
Definition unmul (ci y : Z) : Z := U32.wrap (y * ci).

Definition inv_1025 : Z := 0xC00FFC01.
Definition inv_9 : Z := 0x38E38E39.
Definition inv_32769 : Z := 0x3FFF8001.

(** [s ^= s >> k] applied [2^j] times is [s ^= s >> (2^j * k)], the identity
    on 32 bits once [2^j * k >= 32]; the inverse is the remaining
    applications. *)
Definition unxorshift6 (y : Z) : Z := xorshift 24 (xorshift 12 (xorshift 6 y)).
Definition unxorshift11 (y : Z) : Z := xorshift 22 (xorshift 11 y).

Definition MIX_inv (y : Z) : Z := unmul inv_1025 (unxorshift6 y).
Definition FIN_inv (y : Z) : Z :=
  unmul inv_9 (unxorshift11 (unmul inv_32769 y)).
Definition NAF_inv (y : Z) : Z := MIX_inv (FIN_inv y).

(** A map of the 32-bit values onto themselves, one to one. *)
Definition bijective32 (f : Z -> Z) : Prop :=
  (forall s, U32.in_range s -> U32.in_range (f s)) /\
  (forall a b, U32.in_range a -> U32.in_range b -> f a = f b -> a = b) /\
  (forall y, U32.in_range y -> exists s, U32.in_range s /\ f s = y).

(** ** The operations as the specification words them *)

(** Ingestion of one byte: [s = s + (b + 1) mod 2^32], then
    [s = s + (s << 10) (mod 2^32)], then [s = s ^ (s >> 6)]. *)
Definition spec_update (s : Z) (b : byte) : Z :=
  let s := (s + (Z.of_N (Byte.to_N b) + 1)) mod 2 ^ 32 in
  let s := (s + Z.shiftl s 10) mod 2 ^ 32 in
  Z.lxor s (Z.shiftr s 6).

(** Ingestion, left to right, one byte at a time. *)
Definition spec_ingest (p : list byte) (s : Z) : Z := fold_left spec_update p s.

(** The base postprocess: [s = s + (s << 3)], [s = s ^ (s >> 11)],
    [s = s + (s << 15)], all modulo 2^32. *)
Definition spec_postprocess (s : Z) : Z :=
  let s := (s + Z.shiftl s 3) mod 2 ^ 32 in
  let s := Z.lxor s (Z.shiftr s 11) in
  (s + Z.shiftl s 15) mod 2 ^ 32.

(** The extra mix step [s += s<<10; s ^= s>>6]. *)
Definition spec_mix (s : Z) : Z :=
  let s := (s + Z.shiftl s 10) mod 2 ^ 32 in
  Z.lxor s (Z.shiftr s 6).

(** Finalization with the never-zero step: extra mix, then a working value
    of exactly 0 is forced to 1, then the base postprocess. *)
Definition spec_finalize_never_zero (s : Z) : Z :=
  let s := spec_mix s in
  let s := if s =? 0 then 1 else s in
  spec_postprocess s.

(** Finalization without the never-zero step. *)
Definition spec_finalize_plain (s : Z) : Z := spec_postprocess (spec_mix s).

(** Two calls of [Sum32] in a row, both results kept. *)
Definition Sum32_twice : method (Z * Z) :=
  r1 <- Sum32 ;; r2 <- Sum32 ;; ret (r1, r2).

(** ** The remaining method, [Sum], and what surrounds it *)

(** The conversion [byte(v)] of a 32-bit value keeps its low eight bits. *)
Definition to_byte (v : Z) : byte :=
  match Byte.of_N (Z.to_N (v mod 256)) with
  | Some b => b
  | None => x00
  end.

(** [func (d *digest) Sum(in []byte) []byte]:
    [s := d.Sum32(); return append(in, byte(s>>24), byte(s>>16), byte(s>>8), byte(s))]. *)
Definition Sum (inp : list byte) : method (list byte) :=
  s <- Sum32 ;;
  ret (inp ++ [to_byte (U32.shr s 24); to_byte (U32.shr s 16);
               to_byte (U32.shr s 8); to_byte s]).

(** The number a byte sequence spells, most significant byte first. *)
Definition be_value (bs : list byte) : Z :=
  fold_left (fun acc b => acc * 256 + U32.of_byte b) bs 0.

(** A caller that hands the input to [Write] piece by piece and adds up the
    counts it gets back. *)
Fixpoint Write_chunks (chunks : list (list byte)) : method Z :=
  match chunks with
  | [] => ret 0
  | c :: cs =>
      r <- Write c ;;
      m <- Write_chunks cs ;;
      ret (fst r + m)
  end.

(** The header comment's [ADD(s,v) = 0 <= s = 100000000h - v]: the one state
    from which byte [b] leads to the state 0. *)
Definition zeroing_state (b : byte) : Z := U32.modulus - (U32.of_byte b + 1).

(** The add step of [NUP] undone, and with it the whole per-byte update. *)
Definition NAV_inv (t : Z) (b : byte) : Z := U32.wrap (t - (U32.of_byte b + 1)).
Definition NUP_inv (t : Z) (b : byte) : Z := NAV_inv (MIX_inv t) b.

(** The bytes of [p] undone, last byte first. *)
Definition unaccumulate (p : list byte) (t : digest) : digest :=
  fold_right (fun b acc => NUP_inv acc b) t p.

(** ** What the methods compute *)

Lemma for_range_Write_body (p : list byte) (d : digest) :
  runState (for_range p Write_body) d = (tt, accumulate p d).
Proof.
  revert d; induction p as [|x p IH]; intros d.
  - reflexivity.
  - cbn [for_range accumulate fold_left].
    change (runState (Write_body x ;; for_range p Write_body) d)
      with (runState (for_range p Write_body) (NUP d x)).
    apply IH.
Qed.

Lemma Write_run (p : list byte) (d : digest) :
  runState (Write p) d = ((Z.of_nat (List.length p), nil), accumulate p d).
Proof.
  unfold Write.
  change (runState (for_range p Write_body ;; ret (Z.of_nat (List.length p), nil)) d)
    with (let '(_, d') := runState (for_range p Write_body) d in
          ((Z.of_nat (List.length p), nil), d')).
  rewrite for_range_Write_body. reflexivity.
Qed.

Lemma Sum32_run (d : digest) : runState Sum32 d = (NAF d, d).
Proof. reflexivity. Qed.

Lemma New_zero : New = 0.
Proof. reflexivity. Qed.

Lemma Checksum_eq (data : list byte) : Checksum data = NAF (accumulate data 0).
Proof.
  unfold Checksum, execState, evalState.
  rewrite New_zero, Write_run. cbn [snd]. rewrite Sum32_run. reflexivity.
Qed.

(** ** Facts about 32-bit arithmetic *)

Section U32_facts.

Lemma wrap_range (z : Z) : U32.in_range (U32.wrap z).
Proof. unfold U32.in_range, U32.wrap, U32.modulus. apply Z.mod_pos_bound. lia. Qed.

Lemma wrap_small (z : Z) : U32.in_range z -> U32.wrap z = z.
Proof. unfold U32.in_range, U32.wrap. intros H. apply Z.mod_small, H. Qed.

Lemma add_range (a b : Z) : U32.in_range (U32.add a b).
Proof. apply wrap_range. Qed.

(** [s += s << k] multiplies by the odd number [1 + 2^k]. *)
Lemma add_shl_mul (s k : Z) :
  0 <= k -> U32.add s (U32.shl s k) = U32.wrap (s * (1 + 2 ^ k)).
Proof.
  intros Hk. unfold U32.add, U32.shl, U32.wrap.
  rewrite Z.shiftl_mul_pow2 by assumption.
  rewrite Zplus_mod_idemp_r. f_equal. ring.
Qed.

(** Multiplication by a unit of Z/2^32 is undone by its inverse. *)
Lemma mul_unit_cancel (c ci s : Z) :
  (c * ci) mod U32.modulus = 1 ->
  U32.in_range s ->
  U32.wrap (U32.wrap (s * c) * ci) = s.
Proof.
  intros Hc Hs. unfold U32.wrap.
  rewrite Z.mul_mod_idemp_l by (unfold U32.modulus; lia).
  rewrite <- Z.mul_assoc, <- Z.mul_mod_idemp_r by (unfold U32.modulus; lia).
  rewrite Hc, Z.mul_1_r. apply Z.mod_small, Hs.
Qed.

Lemma lxor_below (n a b : Z) :
  0 <= a < 2 ^ n -> 0 <= b < 2 ^ n -> 0 <= Z.lxor a b < 2 ^ n.
Proof.
  intros Ha Hb.
  assert (H0 : 0 <= Z.lxor a b) by (apply Z.lxor_nonneg; lia).
  split; [exact H0|].
  destruct (Z.eq_dec (Z.lxor a b) 0) as [E|E]; [lia|].
  apply Z.log2_lt_pow2; [lia|].
  pose proof (Z.log2_lxor a b (proj1 Ha) (proj1 Hb)) as Hl.
  assert (La : a = 0 \/ Z.log2 a < n)
    by (destruct (Z.eq_dec a 0); [now left | right; apply Z.log2_lt_pow2; lia]).
  assert (Lb : b = 0 \/ Z.log2 b < n)
    by (destruct (Z.eq_dec b 0); [now left | right; apply Z.log2_lt_pow2; lia]).
  destruct La as [-> | La], Lb as [-> | Lb].
  - now rewrite Z.lxor_0_l in E.
  - rewrite Z.lxor_0_l. exact Lb.
  - rewrite Z.lxor_0_r. exact La.
  - lia.
Qed.

Lemma shiftr_below (n a k : Z) :
  0 <= k -> 0 <= a < 2 ^ n -> 0 <= Z.shiftr a k < 2 ^ n.
Proof.
  intros Hk Ha. rewrite Z.shiftr_div_pow2 by assumption.
  assert (0 < 2 ^ k) by (apply Z.pow_pos_nonneg; lia).
  split; [apply Z.div_pos; lia|].
  apply Z.le_lt_trans with a; [|lia].
  apply Z.div_le_upper_bound; nia.
Qed.

(** [s ^= s >> k] keeps a value below any power of two it is below. *)
Lemma xorshift_below (n k s : Z) :
  0 <= k -> 0 <= s < 2 ^ n -> 0 <= xorshift k s < 2 ^ n.
Proof.
  intros Hk Hs. apply lxor_below; [exact Hs|]. now apply shiftr_below.
Qed.

Lemma xorshift_range (k s : Z) :
  0 <= k -> U32.in_range s -> U32.in_range (xorshift k s).
Proof. intros Hk Hs. now apply (xorshift_below 32). Qed.

(** Applying [s ^= s >> k] twice is [s ^= s >> 2k]. *)
Lemma xorshift_twice (k s : Z) :
  0 <= k -> xorshift k (xorshift k s) = xorshift (k + k) s.
Proof.
  intros Hk. unfold xorshift, U32.xor, U32.shr.
  rewrite Z.shiftr_lxor, Z.shiftr_shiftr by assumption.
  rewrite Z.lxor_assoc, <- (Z.lxor_assoc (Z.shiftr s k)).
  now rewrite Z.lxor_nilpotent, Z.lxor_0_l.
Qed.

Lemma xorshift_comm (j k s : Z) :
  0 <= j -> 0 <= k -> xorshift k (xorshift j s) = xorshift j (xorshift k s).
Proof.
  intros Hj Hk. unfold xorshift, U32.xor, U32.shr.
  rewrite !Z.shiftr_lxor, !Z.shiftr_shiftr by assumption.
  rewrite (Z.add_comm k j).
  rewrite !Z.lxor_assoc. f_equal.
  rewrite <- !Z.lxor_assoc. f_equal. apply Z.lxor_comm.
Qed.

(** A shift by 32 or more leaves nothing of a 32-bit value. *)
Lemma xorshift_past (k s : Z) :
  32 <= k -> U32.in_range s -> xorshift k s = s.
Proof.
  intros Hk Hs. unfold xorshift, U32.xor, U32.shr, U32.in_range, U32.modulus in *.
  rewrite Z.shiftr_div_pow2 by lia.
  rewrite Z.div_small, Z.lxor_0_r; [reflexivity|].
  split; [lia|]. apply Z.lt_le_trans with (2 ^ 32); [lia|].
  apply Z.pow_le_mono_r; lia.
Qed.

Lemma unxorshift6_l (s : Z) : U32.in_range s -> unxorshift6 (xorshift 6 s) = s.
Proof.
  intros Hs. unfold unxorshift6.
  rewrite (xorshift_twice 6), (xorshift_twice 12), (xorshift_twice 24) by lia.
  apply xorshift_past; [lia | exact Hs].
Qed.

Lemma unxorshift6_r (y : Z) : U32.in_range y -> xorshift 6 (unxorshift6 y) = y.
Proof.
  intros Hy. unfold unxorshift6.
  rewrite (xorshift_comm 24 6), (xorshift_comm 12 6) by lia.
  now apply unxorshift6_l.
Qed.

Lemma unxorshift6_range (y : Z) : U32.in_range y -> U32.in_range (unxorshift6 y).
Proof. intros Hy. unfold unxorshift6. repeat apply xorshift_range; auto; lia. Qed.

Lemma unxorshift11_l (s : Z) : U32.in_range s -> unxorshift11 (xorshift 11 s) = s.
Proof.
  intros Hs. unfold unxorshift11.
  rewrite (xorshift_twice 11), (xorshift_twice 22) by lia.
  apply xorshift_past; [lia | exact Hs].
Qed.

Lemma unxorshift11_r (y : Z) : U32.in_range y -> xorshift 11 (unxorshift11 y) = y.
Proof.
  intros Hy. unfold unxorshift11.
  rewrite (xorshift_comm 22 11) by lia.
  now apply unxorshift11_l.
Qed.

Lemma unxorshift11_range (y : Z) : U32.in_range y -> U32.in_range (unxorshift11 y).
Proof. intros Hy. unfold unxorshift11. repeat apply xorshift_range; auto; lia. Qed.

Lemma mulstep_range (k s : Z) : U32.in_range (mulstep k s).
Proof. apply add_range. Qed.

Lemma unmul_range (ci y : Z) : U32.in_range (unmul ci y).
Proof. apply wrap_range. Qed.

Lemma unmul_l (k ci s : Z) :
  0 <= k -> ((1 + 2 ^ k) * ci) mod U32.modulus = 1 ->
  U32.in_range s -> unmul ci (mulstep k s) = s.
Proof.
  intros Hk Hc Hs. unfold unmul, mulstep. rewrite add_shl_mul by assumption.
  now apply mul_unit_cancel.
Qed.

Lemma unmul_r (k ci y : Z) :
  0 <= k -> ((1 + 2 ^ k) * ci) mod U32.modulus = 1 ->
  U32.in_range y -> mulstep k (unmul ci y) = y.
Proof.
  intros Hk Hc Hy. unfold unmul, mulstep. rewrite add_shl_mul by assumption.
  apply mul_unit_cancel; [|exact Hy]. now rewrite Z.mul_comm.
Qed.

(** A map with a two-sided inverse on the 32-bit values is a bijection. *)
Lemma bijective32_of_inverse (f g : Z -> Z) :
  (forall s, U32.in_range s -> U32.in_range (f s)) ->
  (forall y, U32.in_range y -> U32.in_range (g y)) ->
  (forall s, U32.in_range s -> g (f s) = s) ->
  (forall y, U32.in_range y -> f (g y) = y) ->
  bijective32 f.
Proof.
  intros Hf Hg Hgf Hfg. repeat split.
  - apply Hf; assumption.
  - apply Hf; assumption.
  - intros a b Ha Hb E. rewrite <- (Hgf a Ha), <- (Hgf b Hb). now f_equal.
  - intros y Hy. exists (g y). split; [now apply Hg | now apply Hfg].
Qed.

End U32_facts.

(** ** The primitives are bijections of the 32-bit values *)

Section Primitives.

Lemma MIX_steps (s : Z) : MIX s = xorshift 6 (mulstep 10 s).
Proof. reflexivity. Qed.

Lemma FIN_steps (s : Z) : FIN s = mulstep 15 (xorshift 11 (mulstep 3 s)).
Proof. reflexivity. Qed.

Lemma inv_1025_ok : ((1 + 2 ^ 10) * inv_1025) mod U32.modulus = 1.
Proof. reflexivity. Qed.

Lemma inv_9_ok : ((1 + 2 ^ 3) * inv_9) mod U32.modulus = 1.
Proof. reflexivity. Qed.

Lemma inv_32769_ok : ((1 + 2 ^ 15) * inv_32769) mod U32.modulus = 1.
Proof. reflexivity. Qed.

Lemma MIX_range (s : Z) : U32.in_range (MIX s).
Proof. rewrite MIX_steps. apply xorshift_range; [lia | apply mulstep_range]. Qed.

Lemma FIN_range (s : Z) : U32.in_range (FIN s).
Proof. rewrite FIN_steps. apply mulstep_range. Qed.

Lemma NAF_range (s : Z) : U32.in_range (NAF s).
Proof. apply FIN_range. Qed.

Lemma MIX_inv_range (y : Z) : U32.in_range (MIX_inv y).
Proof. apply unmul_range. Qed.

Lemma FIN_inv_range (y : Z) : U32.in_range (FIN_inv y).
Proof. apply unmul_range. Qed.

Lemma MIX_inv_l (s : Z) : U32.in_range s -> MIX_inv (MIX s) = s.
Proof.
  intros Hs. unfold MIX_inv. rewrite MIX_steps.
  rewrite unxorshift6_l by apply mulstep_range.
  apply unmul_l; [lia | exact inv_1025_ok | exact Hs].
Qed.

Lemma MIX_inv_r (y : Z) : U32.in_range y -> MIX (MIX_inv y) = y.
Proof.
  intros Hy. unfold MIX_inv. rewrite MIX_steps.
  rewrite unmul_r; [| lia | exact inv_1025_ok | now apply unxorshift6_range].
  now apply unxorshift6_r.
Qed.

Lemma FIN_inv_l (s : Z) : U32.in_range s -> FIN_inv (FIN s) = s.
Proof.
  intros Hs. unfold FIN_inv. rewrite FIN_steps.
  rewrite unmul_l;
    [| lia | exact inv_32769_ok
     | apply xorshift_range; [lia | apply mulstep_range]].
  rewrite unxorshift11_l by apply mulstep_range.
  apply unmul_l; [lia | exact inv_9_ok | exact Hs].
Qed.

Lemma FIN_inv_r (y : Z) : U32.in_range y -> FIN (FIN_inv y) = y.
Proof.
  intros Hy. unfold FIN_inv. rewrite FIN_steps.
  rewrite unmul_r;
    [| lia | exact inv_9_ok | apply unxorshift11_range, unmul_range].
  rewrite unxorshift11_r by apply unmul_range.
  apply unmul_r; [lia | exact inv_32769_ok | exact Hy].
Qed.

Lemma NAF_inv_l (s : Z) : U32.in_range s -> NAF_inv (NAF s) = s.
Proof.
  intros Hs. unfold NAF_inv, NAF.
  rewrite FIN_inv_l by apply MIX_range. now apply MIX_inv_l.
Qed.

Lemma NAF_inv_r (y : Z) : U32.in_range y -> NAF (NAF_inv y) = y.
Proof.
  intros Hy. unfold NAF_inv, NAF.
  rewrite MIX_inv_r by apply FIN_inv_range. now apply FIN_inv_r.
Qed.

Lemma MIX_zero_iff (s : Z) : U32.in_range s -> (MIX s = 0 <-> s = 0).
Proof.
  intros Hs. split.
  - intros E. rewrite <- (MIX_inv_l s Hs), E. reflexivity.
  - intros ->. reflexivity.
Qed.

Lemma NAF_zero_iff (s : Z) : U32.in_range s -> (NAF s = 0 <-> s = 0).
Proof.
  intros Hs. split.
  - intros E. rewrite <- (NAF_inv_l s Hs), E. reflexivity.
  - intros ->. reflexivity.
Qed.

End Primitives.

(** ** The accumulator *)

Section Accumulator.

Lemma of_byte_range (b : byte) : 0 <= U32.of_byte b <= 255.
Proof.
  unfold U32.of_byte. pose proof (Byte.to_N_bounded b). lia.
Qed.

Lemma NUP_range (s : Z) (b : byte) : U32.in_range (NUP s b).
Proof. apply MIX_range. Qed.

Lemma accumulate_cons (x : byte) (p : list byte) (d : digest) :
  accumulate (x :: p) d = accumulate p (NUP d x).
Proof. reflexivity. Qed.

Lemma accumulate_app (p q : list byte) (d : digest) :
  accumulate (p ++ q) d = accumulate q (accumulate p d).
Proof. apply fold_left_app. Qed.

Lemma accumulate_range (p : list byte) (d : digest) :
  U32.in_range d -> U32.in_range (accumulate p d).
Proof.
  revert d; induction p as [|x p IH]; intros d Hd.
  - exact Hd.
  - rewrite accumulate_cons. apply IH, NUP_range.
Qed.

(** Far enough below 2^32 the add step does not wrap. *)
Lemma NAV_exact (s : Z) (b : byte) :
  0 <= s -> s + 256 < U32.modulus -> NAV s b = s + U32.of_byte b + 1.
Proof.
  intros H0 H1. pose proof (of_byte_range b) as Hb.
  unfold U32.modulus in H1.
  unfold NAV, ADD, U32.add, U32.wrap, U32.modulus.
  rewrite Zplus_mod_idemp_r, Z.mod_small by lia. ring.
Qed.

(** The mix of a small value is small: it is at most 1025 times as large. *)
Lemma MIX_below (B n v : Z) :
  0 <= v <= B -> B * 1025 < 2 ^ n -> 0 <= n <= 32 -> 0 <= MIX v < 2 ^ n.
Proof.
  intros Hv HB Hn. rewrite MIX_steps. apply xorshift_below; [lia|].
  unfold mulstep. rewrite add_shl_mul by lia.
  assert (2 ^ n <= 2 ^ 32) by (apply Z.pow_le_mono_r; lia).
  change (1 + 2 ^ 10) with 1025.
  unfold U32.wrap, U32.modulus. rewrite Z.mod_small; nia.
Qed.

Lemma NUP_nonzero (s : Z) (b : byte) :
  0 <= s -> s + 256 < U32.modulus -> NUP s b <> 0.
Proof.
  intros H0 H1 E. pose proof (of_byte_range b) as Hb.
  unfold NUP in E. rewrite NAV_exact in E by assumption.
  apply -> MIX_zero_iff in E; [lia|].
  unfold U32.in_range, U32.modulus in *. lia.
Qed.

Lemma NUP_below (B n s : Z) (b : byte) :
  0 <= s <= B -> (B + 256) * 1025 < 2 ^ n -> 0 <= n <= 32 ->
  0 <= NUP s b < 2 ^ n.
Proof.
  intros Hs HB Hn. pose proof (of_byte_range b) as Hb.
  assert (2 ^ n <= 2 ^ 32) by (apply Z.pow_le_mono_r; lia).
  unfold NUP. rewrite NAV_exact by (unfold U32.modulus; lia).
  apply (MIX_below (B + 256)); lia.
Qed.

(** Up to three bytes cannot bring the accumulator back to 0. *)
Lemma accumulate_short_nonzero (x : list byte) :
  (1 <= List.length x <= 3)%nat -> accumulate x 0 <> 0.
Proof.
  intros Hlen.
  destruct x as [|a [|b [|c [|e x]]]]; cbn [List.length] in Hlen; try lia;
    repeat rewrite accumulate_cons; cbn [accumulate fold_left].
  - apply NUP_nonzero; [lia | reflexivity].
  - pose proof (NUP_below 0 19 0 a) as H1.
    apply NUP_nonzero; unfold U32.modulus; lia.
  - pose proof (NUP_below 0 19 0 a) as H1.
    pose proof (NUP_below (2 ^ 19 - 1) 30 (NUP 0 a) b) as H2.
    apply NUP_nonzero; unfold U32.modulus; lia.
Qed.

End Accumulator.

(** ** The specification's wording against the primitives *)

Section Wording.

Lemma spec_mix_MIX (s : Z) : spec_mix s = MIX s.
Proof.
  unfold spec_mix, MIX, U32.add, U32.shl, U32.xor, U32.shr, U32.wrap, U32.modulus.
  cbv zeta. now rewrite Zplus_mod_idemp_r.
Qed.

Lemma spec_postprocess_FIN (s : Z) : spec_postprocess s = FIN s.
Proof.
  unfold spec_postprocess, FIN, U32.add, U32.shl, U32.xor, U32.shr, U32.wrap,
    U32.modulus.
  cbv zeta. now rewrite !Zplus_mod_idemp_r.
Qed.

Lemma spec_update_NUP (s : Z) (b : byte) : spec_update s b = NUP s b.
Proof.
  unfold spec_update. cbv zeta. fold (spec_mix ((s + (Z.of_N (to_N b) + 1)) mod 2 ^ 32)).
  rewrite spec_mix_MIX. unfold NUP. f_equal.
  unfold NAV, ADD, U32.add, U32.of_byte, U32.wrap, U32.modulus.
  now rewrite Zplus_mod_idemp_r.
Qed.

Lemma spec_ingest_accumulate (p : list byte) (s : Z) :
  spec_ingest p s = accumulate p s.
Proof.
  unfold spec_ingest, accumulate. revert s.
  induction p as [|b p IH]; intros s; cbn [fold_left].
  - reflexivity.
  - now rewrite spec_update_NUP, IH.
Qed.

Lemma spec_finalize_plain_NAF (s : Z) : spec_finalize_plain s = NAF s.
Proof.
  unfold spec_finalize_plain, NAF. now rewrite spec_mix_MIX, spec_postprocess_FIN.
Qed.

End Wording.

(** ** Sequencing of methods *)

Section Sequencing.

Lemma runState_bind {A B : Type} (c : method A) (f : A -> method B) (d : digest) :
  runState (x <- c ;; f x) d = runState (f (fst (runState c d))) (snd (runState c d)).
Proof. cbn. destruct (runState c d). reflexivity. Qed.

Lemma Write_exec (p : list byte) (d : digest) :
  execState (Write p) d = accumulate p d.
Proof. unfold execState. now rewrite Write_run. Qed.

Lemma Write_eval (p : list byte) (d : digest) :
  evalState (Write p) d = (Z.of_nat (List.length p), nil).
Proof. unfold evalState. now rewrite Write_run. Qed.

Lemma Sum32_eval (d : digest) : evalState Sum32 d = NAF d.
Proof. unfold evalState. now rewrite Sum32_run. Qed.

Lemma Sum32_exec (d : digest) : execState Sum32 d = d.
Proof. unfold execState. now rewrite Sum32_run. Qed.

Lemma Write_then_Sum32 (p : list byte) (d : digest) :
  runState (Write p ;; Sum32) d = (NAF (accumulate p d), accumulate p d).
Proof. now rewrite runState_bind, Write_run, Sum32_run. Qed.

End Sequencing.

(** ** The claims *)

(** C1, as amended.  [Checksum] returns a 32-bit value that is 0 exactly
    when the accumulator left by [Write] is 0; [Sum32] has no step that
    avoids 0.  For an input of one, two or three bytes the accumulator cannot
    be 0, so the checksum lies in [1, 2^32 - 1]. *)
Theorem Checksum_zero_iff_accumulator (x : list byte) :
  U32.in_range (Checksum x) /\
  (Checksum x = 0 <-> execState (Write x) New = 0) /\
  ((1 <= List.length x <= 3)%nat -> 1 <= Checksum x <= 2 ^ 32 - 1).
Proof.
  rewrite Checksum_eq, Write_exec, New_zero.
  assert (Hacc : U32.in_range (accumulate x 0))
    by (apply accumulate_range; unfold U32.in_range, U32.modulus; lia).
  pose proof (NAF_range (accumulate x 0)) as Hr.
  split; [exact Hr|]. split; [now apply NAF_zero_iff|].
  intros Hlen. apply accumulate_short_nonzero in Hlen.
  assert (NAF (accumulate x 0) <> 0) by (rewrite NAF_zero_iff; assumption).
  unfold U32.in_range, U32.modulus in Hr. lia.
Qed.

Lemma Checksum_zero_iff_accumulator_witness :
  (1 <= List.length (bytes_of "abc") <= 3)%nat /\
  1 <= Checksum (bytes_of "abc") <= 2 ^ 32 - 1.
Proof.
  split.
  - cbn. lia.
  - apply (Checksum_zero_iff_accumulator (bytes_of "abc")). cbn. lia.
Defined.

(** C1 as stated fails: the four bytes 1a 55 81 b5 are a nonempty input whose
    checksum is 0. *)
Lemma Checksum_nonempty_zero :
  [x1a; x55; x81; xb5] <> [] /\ Checksum [x1a; x55; x81; xb5] = 0.
Proof. split; [discriminate | vm_compute; reflexivity]. Qed.

(** C2, as amended.  [Sum32] computes, on a copy of the accumulator, the
    extra mix step and then the base postprocess, with no step between them
    that forces 0 to 1; on every nonzero 32-bit accumulator this is the value
    of the three-step pipeline with the forcing step. *)
Theorem Sum32_is_mix_then_postprocess (s : Z) :
  evalState Sum32 s = spec_finalize_plain s /\
  (U32.in_range s -> s <> 0 -> evalState Sum32 s = spec_finalize_never_zero s).
Proof.
  rewrite Sum32_eval, spec_finalize_plain_NAF. split; [reflexivity|].
  intros Hs Hnz. unfold spec_finalize_never_zero. cbv zeta.
  rewrite spec_mix_MIX.
  destruct (Z.eqb_spec (MIX s) 0) as [E|_].
  - apply -> MIX_zero_iff in E; [contradiction | exact Hs].
  - now rewrite spec_postprocess_FIN.
Qed.

Lemma Sum32_is_mix_then_postprocess_witness :
  U32.in_range 97 /\ 97 <> 0 /\
  evalState Sum32 97 = spec_finalize_never_zero 97.
Proof.
  assert (H : U32.in_range 97) by (unfold U32.in_range, U32.modulus; lia).
  split; [exact H|]. split; [lia|].
  apply (Sum32_is_mix_then_postprocess 97); [exact H | lia].
Defined.

(** C2 as stated fails at accumulator 0: the pipeline with the forcing step
    gives a nonzero value there, [Sum32] gives 0. *)
Lemma Sum32_zero_not_forced :
  evalState Sum32 0 = 0 /\ spec_finalize_never_zero 0 = 294921 /\
  evalState Sum32 0 <> spec_finalize_never_zero 0.
Proof. repeat split; vm_compute; congruence. Qed.

(** C3.  [Sum32] on a freshly constructed engine, and on any engine right
    after [Reset], returns exactly 0. *)
Theorem Sum32_fresh_is_zero :
  evalState Sum32 New = 0 /\
  (forall d : digest, evalState Sum32 (execState Reset d) = 0) /\
  (forall d : digest, evalState (Reset ;; Sum32) d = 0) /\
  Checksum [] = 0.
Proof. repeat split. Qed.

(** C4.  The reference vectors: the checksums of "a", "abc" and
    "message digest" are c31517c4, c3e39e2d and 434b78b4. *)
Theorem Checksum_reference_vectors :
  Checksum (bytes_of "a") = 0xC31517C4 /\
  Checksum (bytes_of "abc") = 0xC3E39E2D /\
  Checksum (bytes_of "message digest") = 0x434B78B4.
Proof. repeat split; vm_compute; reflexivity. Qed.

(** C5.  [Write] takes the bytes left to right, one at a time, and for each
    byte [b] replaces the accumulator [s] by the result of
    [s = s + (b + 1) mod 2^32], [s = s + (s << 10) mod 2^32],
    [s = s ^ (s >> 6)] with a logical shift; the accumulator is all the
    state there is. *)
Theorem Write_updates_per_byte :
  (forall d : digest, execState (Write []) d = d) /\
  (forall (b : byte) (p : list byte) (d : digest),
      execState (Write (b :: p)) d = execState (Write p) (spec_update d b)) /\
  (forall (p : list byte) (d : digest),
      execState (Write p) d = spec_ingest p d).
Proof.
  split; [|split].
  - intros d. now rewrite Write_exec.
  - intros b p d. now rewrite !Write_exec, accumulate_cons, spec_update_NUP.
  - intros p d. now rewrite Write_exec, spec_ingest_accumulate.
Qed.

(** C6.  [Sum32] leaves the accumulator as it found it, and two calls in a
    row, with no [Write] between them, return the same value. *)
Theorem Sum32_does_not_mutate (d : digest) :
  execState Sum32 d = d /\
  execState Sum32_twice d = d /\
  fst (evalState Sum32_twice d) = snd (evalState Sum32_twice d) /\
  fst (evalState Sum32_twice d) = evalState Sum32 d.
Proof.
  unfold Sum32_twice, execState, evalState.
  rewrite !runState_bind, !Sum32_run. cbn [fst snd].
  rewrite ?Sum32_run. repeat split.
Qed.

(** C7.  For every byte sequence and every engine state [Write] returns the
    length of the sequence and a nil error, and [Write] of the empty
    sequence leaves the accumulator unchanged. *)
Theorem Write_returns_length_nil (p : list byte) (d : digest) :
  evalState (Write p) d = (Z.of_nat (List.length p), nil) /\
  evalState (Write []) d = (0, nil) /\
  execState (Write []) d = d.
Proof.
  rewrite Write_eval. repeat split.
Qed.

(** C8.  Incremental consistency: on a fresh engine, [Write x1], [Write x2]
    and [Sum32] give what [Write (x1 ++ x2)] and [Sum32] give. *)
Theorem Write_split_consistent (x1 x2 : list byte) :
  evalState (Write x1 ;; Write x2 ;; Sum32) New
  = evalState (Write (x1 ++ x2) ;; Sum32) New.
Proof.
  unfold evalState.
  rewrite runState_bind, !Write_then_Sum32, Write_run. cbn [fst snd].
  now rewrite accumulate_app.
Qed.

(** C9.  The one-shot [Checksum] is the streaming pipeline: a new engine
    from [New], whose accumulator is 0, then [Write] of the data, then
    [Sum32]. *)
Theorem Checksum_is_streaming (data : list byte) :
  New = 0 /\
  Checksum data = evalState (Write data ;; Sum32) New /\
  Checksum data = spec_finalize_plain (spec_ingest data 0).
Proof.
  split; [exact New_zero|]. unfold evalState.
  rewrite Write_then_Sum32, Checksum_eq, New_zero. cbn [fst].
  now rewrite spec_finalize_plain_NAF, spec_ingest_accumulate.
Qed.

(** C10.  Each of the five steps of [Sum32] is a bijection of the 32-bit
    values, hence so is [Sum32]; it returns 0 exactly when the accumulator
    is 0. *)
Theorem Sum32_bijective :
  bijective32 (mulstep 10) /\ bijective32 (xorshift 6) /\
  bijective32 (mulstep 3) /\ bijective32 (xorshift 11) /\
  bijective32 (mulstep 15) /\
  (forall s, evalState Sum32 s
             = mulstep 15 (xorshift 11 (mulstep 3 (xorshift 6 (mulstep 10 s))))) /\
  bijective32 (evalState Sum32) /\
  (forall s, U32.in_range s -> (evalState Sum32 s = 0 <-> s = 0)).
Proof.
  assert (Hmul : forall k ci, 0 <= k ->
            ((1 + 2 ^ k) * ci) mod U32.modulus = 1 -> bijective32 (mulstep k)).
  { intros k ci Hk Hci. apply (bijective32_of_inverse _ (unmul ci)).
    - intros; apply mulstep_range.
    - intros; apply unmul_range.
    - intros; now apply unmul_l.
    - intros; now apply unmul_r. }
  refine (conj _ (conj _ (conj _ (conj _ (conj _ (conj _ (conj _ _))))))).
  - apply (Hmul 10 inv_1025); [lia | exact inv_1025_ok].
  - apply (bijective32_of_inverse _ unxorshift6).
    + intros; apply xorshift_range; [lia | assumption].
    + apply unxorshift6_range.
    + apply unxorshift6_l.
    + apply unxorshift6_r.
  - apply (Hmul 3 inv_9); [lia | exact inv_9_ok].
  - apply (bijective32_of_inverse _ unxorshift11).
    + intros; apply xorshift_range; [lia | assumption].
    + apply unxorshift11_range.
    + apply unxorshift11_l.
    + apply unxorshift11_r.
  - apply (Hmul 15 inv_32769); [lia | exact inv_32769_ok].
  - intros s. now rewrite Sum32_eval.
  - apply (bijective32_of_inverse _ NAF_inv).
    + intros; rewrite Sum32_eval; apply NAF_range.
    + intros; apply MIX_inv_range.
    + intros; rewrite Sum32_eval; now apply NAF_inv_l.
    + intros; rewrite Sum32_eval; now apply NAF_inv_r.
  - intros s Hs. rewrite Sum32_eval. now apply NAF_zero_iff.
Qed.

Lemma Sum32_bijective_witness :
  U32.in_range 0xFFFFFF9E /\ (evalState Sum32 0xFFFFFF9E = 0 <-> 0xFFFFFF9E = 0).
Proof.
  assert (H : U32.in_range 0xFFFFFF9E) by (unfold U32.in_range, U32.modulus; lia).
  split; [exact H|].
  apply (proj2 (proj2 (proj2 (proj2 (proj2 (proj2 (proj2 Sum32_bijective)))))) _ H).
Defined.

(** ** Bytes of a 32-bit value *)

Section Bytes.

Lemma of_byte_to_byte (v : Z) : U32.of_byte (to_byte v) = v mod 256.
Proof.
  unfold U32.of_byte, to_byte.
  assert (Hv : 0 <= v mod 256 < 256) by (apply Z.mod_pos_bound; lia).
  destruct (Byte.of_N (Z.to_N (v mod 256))) as [b|] eqn:E.
  - apply Byte.to_of_N in E. rewrite E. apply Z2N.id. lia.
  - apply Byte.of_N_None_iff in E. lia.
Qed.

Lemma of_byte_inj (a b : byte) : U32.of_byte a = U32.of_byte b -> a = b.
Proof.
  unfold U32.of_byte. intros E. apply N2Z.inj in E.
  pose proof (Byte.of_to_N a) as Ha. rewrite E, Byte.of_to_N in Ha.
  congruence.
Qed.

Lemma be_value_four (a b c e : byte) :
  be_value [a; b; c; e]
  = ((U32.of_byte a * 256 + U32.of_byte b) * 256 + U32.of_byte c) * 256
    + U32.of_byte e.
Proof. unfold be_value. cbn [fold_left]. ring. Qed.

(** The four bytes [byte(s>>24), byte(s>>16), byte(s>>8), byte(s)] spell [s]. *)
Lemma be_value_bytes (s : Z) :
  U32.in_range s ->
  be_value [to_byte (U32.shr s 24); to_byte (U32.shr s 16);
            to_byte (U32.shr s 8); to_byte s] = s.
Proof.
  unfold U32.in_range, U32.modulus. intros Hs.
  rewrite be_value_four, !of_byte_to_byte. unfold U32.shr.
  rewrite !Z.shiftr_div_pow2 by lia.
  change (2 ^ 24) with 16777216. change (2 ^ 16) with 65536.
  change (2 ^ 8) with 256. change (2 ^ 32) with 4294967296 in Hs.
  Z.div_mod_to_equations. lia.
Qed.

Lemma Sum_run (inp : list byte) (d : digest) :
  runState (Sum inp) d
  = (inp ++ [to_byte (U32.shr (NAF d) 24); to_byte (U32.shr (NAF d) 16);
             to_byte (U32.shr (NAF d) 8); to_byte (NAF d)], d).
Proof. unfold Sum. now rewrite runState_bind, Sum32_run. Qed.

End Bytes.

(** ** The per-byte update as a map of states *)

Section Update.

Lemma NAV_range (s : Z) (b : byte) : U32.in_range (NAV s b).
Proof. apply wrap_range. Qed.

Lemma NAV_unfold (s : Z) (b : byte) :
  NAV s b = (s + (U32.of_byte b + 1)) mod 2 ^ 32.
Proof.
  unfold NAV, ADD, U32.add, U32.wrap, U32.modulus.
  now rewrite Zplus_mod_idemp_r.
Qed.

Lemma NAV_inv_l (s : Z) (b : byte) : U32.in_range s -> NAV_inv (NAV s b) b = s.
Proof.
  unfold U32.in_range, U32.modulus. intros Hs.
  rewrite NAV_unfold. unfold NAV_inv, U32.wrap, U32.modulus.
  rewrite Zminus_mod_idemp_l.
  replace (s + (U32.of_byte b + 1) - (U32.of_byte b + 1)) with s by ring.
  now apply Z.mod_small.
Qed.

Lemma NAV_inv_r (t : Z) (b : byte) : U32.in_range t -> NAV (NAV_inv t b) b = t.
Proof.
  unfold U32.in_range, U32.modulus. intros Ht.
  rewrite NAV_unfold. unfold NAV_inv, U32.wrap, U32.modulus.
  rewrite Zplus_mod_idemp_l.
  replace (t - (U32.of_byte b + 1) + (U32.of_byte b + 1)) with t by ring.
  now apply Z.mod_small.
Qed.

Lemma NUP_inv_range (t : Z) (b : byte) : U32.in_range (NUP_inv t b).
Proof. apply wrap_range. Qed.

Lemma NUP_inv_l (s : Z) (b : byte) : U32.in_range s -> NUP_inv (NUP s b) b = s.
Proof.
  intros Hs. unfold NUP_inv, NUP.
  rewrite MIX_inv_l by apply NAV_range. now apply NAV_inv_l.
Qed.

Lemma NUP_inv_r (t : Z) (b : byte) : U32.in_range t -> NUP (NUP_inv t b) b = t.
Proof.
  intros Ht. unfold NUP_inv, NUP.
  rewrite NAV_inv_r by apply MIX_inv_range. now apply MIX_inv_r.
Qed.

Lemma unaccumulate_range (p : list byte) (t : digest) :
  U32.in_range t -> U32.in_range (unaccumulate p t).
Proof.
  intros Ht. destruct p as [|b p]; [exact Ht | apply NUP_inv_range].
Qed.

Lemma unaccumulate_l (p : list byte) (d : digest) :
  U32.in_range d -> unaccumulate p (accumulate p d) = d.
Proof.
  revert d; induction p as [|b p IH]; intros d Hd.
  - reflexivity.
  - rewrite accumulate_cons. cbn [unaccumulate fold_right].
    fold (unaccumulate p (accumulate p (NUP d b))).
    rewrite IH by apply NUP_range. now apply NUP_inv_l.
Qed.

Lemma unaccumulate_r (p : list byte) (t : digest) :
  U32.in_range t -> accumulate p (unaccumulate p t) = t.
Proof.
  revert t; induction p as [|b p IH]; intros t Ht.
  - reflexivity.
  - cbn [unaccumulate fold_right]. fold (unaccumulate p t).
    rewrite accumulate_cons.
    rewrite NUP_inv_r by now apply unaccumulate_range.
    now apply IH.
Qed.

Lemma accumulate_inj (p : list byte) (d1 d2 : digest) :
  U32.in_range d1 -> U32.in_range d2 ->
  accumulate p d1 = accumulate p d2 -> d1 = d2.
Proof.
  intros H1 H2 E.
  rewrite <- (unaccumulate_l p d1 H1), <- (unaccumulate_l p d2 H2).
  now f_equal.
Qed.

Lemma NAF_inj (a b : Z) :
  U32.in_range a -> U32.in_range b -> NAF a = NAF b -> a = b.
Proof.
  intros Ha Hb E. rewrite <- (NAF_inv_l a Ha), <- (NAF_inv_l b Hb). now f_equal.
Qed.

Lemma MIX_inj (a b : Z) :
  U32.in_range a -> U32.in_range b -> MIX a = MIX b -> a = b.
Proof.
  intros Ha Hb E. rewrite <- (MIX_inv_l a Ha), <- (MIX_inv_l b Hb). now f_equal.
Qed.

(** From one state, two bytes that lead to the same state are the same. *)
Lemma NAV_byte_inj (s : Z) (b1 b2 : byte) : NAV s b1 = NAV s b2 -> b1 = b2.
Proof.
  rewrite !NAV_unfold. intros E. apply of_byte_inj.
  pose proof (of_byte_range b1). pose proof (of_byte_range b2).
  change (2 ^ 32) with 4294967296 in E.
  revert E. Z.div_mod_to_equations. lia.
Qed.

Lemma NUP_byte_inj (s : Z) (b1 b2 : byte) : NUP s b1 = NUP s b2 -> b1 = b2.
Proof.
  unfold NUP. intros E. apply MIX_inj in E; try apply NAV_range.
  now apply NAV_byte_inj in E.
Qed.

(** The add step moves every state: [ADD(s,b+c) <> s]. *)
Lemma NAV_moves (s : Z) (b : byte) : NAV s b <> s.
Proof.
  rewrite NAV_unfold. pose proof (of_byte_range b).
  change (2 ^ 32) with 4294967296.
  Z.div_mod_to_equations. lia.
Qed.

Lemma NAV_zero_iff (s : Z) (b : byte) :
  U32.in_range s -> (NAV s b = 0 <-> s = zeroing_state b).
Proof.
  unfold U32.in_range, zeroing_state, U32.modulus. intros Hs.
  rewrite NAV_unfold. pose proof (of_byte_range b).
  change (2 ^ 32) with 4294967296 in *.
  Z.div_mod_to_equations. lia.
Qed.

Lemma Write_one (b : byte) (d : digest) : execState (Write [b]) d = NUP d b.
Proof. now rewrite Write_exec. Qed.

End Update.

(** ** Further properties of the package *)

(** X1.  [Sum] returns its argument followed by [Size()] more bytes, which
    spell the value of [Sum32] most significant byte first, and it leaves
    the accumulator as it found it. *)
Theorem Sum_appends_big_endian (inp : list byte) (d : digest) :
  execState (Sum inp) d = d /\
  firstn (List.length inp) (evalState (Sum inp) d) = inp /\
  Z.of_nat (List.length (evalState (Sum inp) d))
  = Z.of_nat (List.length inp) + evalState Size d /\
  be_value (skipn (List.length inp) (evalState (Sum inp) d)) = evalState Sum32 d.
Proof.
  unfold execState, evalState. rewrite Sum_run, Sum32_run. cbn [fst snd].
  split; [reflexivity|]. split; [|split].
  - rewrite firstn_app, firstn_all, Nat.sub_diag. cbn [firstn].
    apply app_nil_r.
  - rewrite length_app. cbn. lia.
  - rewrite skipn_app, skipn_all, Nat.sub_diag. cbn [skipn app].
    apply be_value_bytes, NAF_range.
Qed.

(** X2.  Engines whose accumulators differ return different byte sequences
    from [Sum], whatever they append to. *)
Theorem Sum_distinguishes_states (inp : list byte) (d1 d2 : digest) :
  U32.in_range d1 -> U32.in_range d2 -> d1 <> d2 ->
  evalState (Sum inp) d1 <> evalState (Sum inp) d2.
Proof.
  intros H1 H2 Hne E. apply Hne. unfold evalState in E.
  rewrite !Sum_run in E. cbn [fst] in E. apply app_inv_head in E.
  apply (f_equal be_value) in E.
  rewrite !be_value_bytes in E by apply NAF_range.
  now apply NAF_inj.
Qed.

Lemma Sum_distinguishes_states_witness :
  evalState (Sum (bytes_of "k")) 7 <> evalState (Sum (bytes_of "k")) 0xFFFFFFFF.
Proof.
  apply (Sum_distinguishes_states (bytes_of "k") 7 0xFFFFFFFF);
    unfold U32.in_range, U32.modulus; lia.
Defined.

(** X3.  The last byte always counts: from any state, writing two different
    bytes leaves different accumulators and different values of [Sum32]; so
    two inputs that differ only in their last byte have different
    checksums. *)
Theorem last_byte_changes_checksum (b1 b2 : byte) :
  b1 <> b2 ->
  (forall d : digest,
      execState (Write [b1]) d <> execState (Write [b2]) d /\
      evalState (Write [b1] ;; Sum32) d <> evalState (Write [b2] ;; Sum32) d) /\
  (forall p : list byte, Checksum (p ++ [b1]) <> Checksum (p ++ [b2])).
Proof.
  intros Hne.
  assert (Hst : forall d, NAF (NUP d b1) <> NAF (NUP d b2)).
  { intros d E. apply NAF_inj in E; try apply NUP_range.
    now apply NUP_byte_inj in E. }
  split.
  - intros d. unfold evalState. rewrite !Write_then_Sum32, !Write_one.
    cbn [fst accumulate fold_left]. split; [|apply Hst].
    intros E. now apply NUP_byte_inj in E.
  - intros p. rewrite !Checksum_eq, !accumulate_app. apply Hst.
Qed.

Lemma last_byte_changes_checksum_witness :
  Checksum (bytes_of "ab" ++ [x00]) <> Checksum (bytes_of "ab" ++ [x01]).
Proof.
  apply (last_byte_changes_checksum x00 x01); discriminate.
Defined.

(** X4.  For every input, [Write] permutes the 32-bit states: it keeps the
    accumulator a 32-bit value, different states stay different, and every
    state is reached from some state. *)
Theorem Write_permutes_states (p : list byte) :
  bijective32 (fun d => execState (Write p) d).
Proof.
  apply (bijective32_of_inverse _ (unaccumulate p)).
  - intros s Hs. rewrite Write_exec. now apply accumulate_range.
  - intros y Hy. now apply unaccumulate_range.
  - intros s Hs. rewrite Write_exec. now apply unaccumulate_l.
  - intros y Hy. rewrite Write_exec. now apply unaccumulate_r.
Qed.

Lemma Write_permutes_states_witness :
  U32.in_range 5 /\ U32.in_range (execState (Write (bytes_of "abc")) 5).
Proof.
  assert (H : U32.in_range 5) by (unfold U32.in_range, U32.modulus; lia).
  split; [exact H|].
  apply (proj1 (Write_permutes_states (bytes_of "abc")) 5 H).
Defined.

(** X5.  A common suffix neither creates nor removes a collision: the
    checksums of [p1 ++ q] and [p2 ++ q] agree exactly when those of [p1]
    and [p2] do. *)
Theorem common_suffix_keeps_collisions (p1 p2 q : list byte) :
  Checksum (p1 ++ q) = Checksum (p2 ++ q) <-> Checksum p1 = Checksum p2.
Proof.
  rewrite !Checksum_eq, !accumulate_app.
  assert (H0 : U32.in_range 0) by (unfold U32.in_range, U32.modulus; lia).
  pose proof (accumulate_range p1 0 H0) as H1.
  pose proof (accumulate_range p2 0 H0) as H2.
  split; intros E.
  - apply NAF_inj in E; try (apply accumulate_range; assumption).
    apply accumulate_inj in E; try assumption. now rewrite E.
  - apply NAF_inj in E; try assumption. now rewrite E.
Qed.

Lemma common_suffix_keeps_collisions_witness :
  Checksum ([x1a; x55; x81; xb5] ++ bytes_of "tail") = Checksum ([] ++ bytes_of "tail").
Proof.
  apply (common_suffix_keeps_collisions [x1a; x55; x81; xb5] [] (bytes_of "tail")).
  vm_compute. reflexivity.
Defined.

(** X6.  [Reset] makes the engine forget: whatever the state and whatever
    was written before, after [Reset] the engine hashes what follows as a
    new one does. *)
Theorem Reset_forgets (p q : list byte) (d : digest) :
  evalState (Write p ;; Reset ;; Write q ;; Sum32) d = Checksum q /\
  execState (Write p ;; Reset) d = New.
Proof.
  unfold evalState, execState.
  rewrite !(runState_bind (Write p)), Write_run. cbn [fst snd].
  rewrite !(runState_bind Reset).
  change (snd (runState Reset (accumulate p d))) with 0.
  rewrite Write_then_Sum32, Checksum_eq. split; reflexivity.
Qed.

(** X7.  For each byte [b] exactly one 32-bit state is sent to the state 0 by
    writing [b], namely [2^32 - (b + 1)]; from that state, and from no
    other, [Sum32] after the write returns 0. *)
Theorem Write_reaches_zero_from_one_state (b : byte) (s : digest) :
  U32.in_range s ->
  (execState (Write [b]) s = 0 <-> s = zeroing_state b) /\
  (evalState (Write [b] ;; Sum32) s = 0 <-> s = zeroing_state b).
Proof.
  intros Hs.
  assert (K : NUP s b = 0 <-> s = zeroing_state b).
  { unfold NUP. rewrite MIX_zero_iff by apply NAV_range.
    now apply NAV_zero_iff. }
  unfold evalState. rewrite Write_then_Sum32, Write_one.
  cbn [fst accumulate fold_left]. split; [exact K|].
  rewrite NAF_zero_iff by apply NUP_range. exact K.
Qed.

Lemma Write_reaches_zero_from_one_state_witness :
  U32.in_range 0xFFFFFF9E /\
  (execState (Write [x61]) 0xFFFFFF9E = 0 <-> 0xFFFFFF9E = zeroing_state x61).
Proof.
  assert (H : U32.in_range 0xFFFFFF9E) by (unfold U32.in_range, U32.modulus; lia).
  split; [exact H|].
  apply (proj1 (Write_reaches_zero_from_one_state x61 0xFFFFFF9E H)).
Defined.

(** X8.  Every byte, a zero byte too, moves the state in the add step: the
    state after writing one byte is never the mere mix of the state before,
    which is what a zero byte gives in the one-at-a-time hash. *)
Theorem Write_byte_is_not_mere_mix (b : byte) (s : digest) :
  U32.in_range s ->
  NAV s b <> s /\ execState (Write [b]) s <> MIX s.
Proof.
  intros Hs. split; [apply NAV_moves|].
  rewrite Write_one. unfold NUP. intros E.
  apply MIX_inj in E; [| apply NAV_range | exact Hs].
  now apply NAV_moves in E.
Qed.

Lemma Write_byte_is_not_mere_mix_witness :
  U32.in_range 0xFFFFFFFF /\ execState (Write [x00]) 0xFFFFFFFF <> MIX 0xFFFFFFFF.
Proof.
  assert (H : U32.in_range 0xFFFFFFFF) by (unfold U32.in_range, U32.modulus; lia).
  split; [exact H|].
  apply (proj2 (Write_byte_is_not_mere_mix x00 0xFFFFFFFF H)).
Defined.

(** X9.  Writing the input in pieces, however it is cut and from whatever
    state, leaves the accumulator that one [Write] of the whole input
    leaves, and the counts returned add up to its length; this holds for
    pieces of one byte, the block size. *)
Theorem Write_chunks_is_Write_concat (chunks : list (list byte)) (d : digest) :
  runState (Write_chunks chunks) d
  = (Z.of_nat (List.length (List.concat chunks)), execState (Write (List.concat chunks)) d) /\
  (forall p : list byte,
      runState (Write_chunks (map (fun b => [b]) p)) d
      = (Z.of_nat (List.length p), execState (Write p) d)).
Proof.
  assert (H : forall cs d',
             runState (Write_chunks cs) d'
             = (Z.of_nat (List.length (List.concat cs)), accumulate (List.concat cs) d')).
  { induction cs as [|c cs IH]; intros d'.
    - reflexivity.
    - cbn [Write_chunks List.concat].
      rewrite runState_bind, Write_run. cbn [fst snd].
      rewrite runState_bind, IH. cbn [fst snd].
      rewrite accumulate_app, length_app, Nat2Z.inj_add. reflexivity. }
  split.
  - now rewrite H, Write_exec.
  - intros p. rewrite H, Write_exec.
    assert (E : List.concat (map (fun b => [b]) p) = p).
    { induction p as [|b p IHp]; [reflexivity|]. cbn. now rewrite IHp. }
    now rewrite E.
Qed.

(** X10.  The usual way to use the engine, [Write(data)] and then
    [Sum(nil)], yields the four bytes that spell [Checksum(data)] most
    significant byte first. *)
Theorem Sum_after_Write_spells_Checksum (data : list byte) :
  List.length (evalState (Write data ;; Sum []) New) = 4%nat /\
  be_value (evalState (Write data ;; Sum []) New) = Checksum data.
Proof.
  unfold evalState. rewrite runState_bind, Write_run, Sum_run, New_zero.
  cbn [fst snd app]. split; [reflexivity|].
  rewrite be_value_bytes by apply NAF_range.
  now rewrite Checksum_eq.
Qed.

(** X11.  Reading the digest in the middle of a stream, with [Sum] or with
    [Sum32], does not disturb it: the writes before and after it leave the
    accumulator that one [Write] of all the bytes leaves, and on a new engine
    the final [Sum32] is the checksum of all the bytes. *)
Theorem peeking_does_not_disturb (p q inp : list byte) (d : digest) :
  execState (Write p ;; Sum inp ;; Sum32 ;; Write q) d
  = execState (Write (p ++ q)) d /\
  evalState (Write p ;; Sum inp ;; Sum32 ;; Write q ;; Sum32) New
  = Checksum (p ++ q).
Proof.
  unfold execState, evalState.
  rewrite !(runState_bind (Write p)), !Write_run. cbn [fst snd].
  rewrite !(runState_bind (Sum inp)), !Sum_run. cbn [fst snd].
  rewrite !(runState_bind Sum32), !Sum32_run. cbn [fst snd].
  rewrite Write_run, Write_then_Sum32, Checksum_eq, New_zero, !accumulate_app.
  split; reflexivity.
Qed.
